(** * The graph-convolution network of the GNN tutorial notebook

    A shallow embedding of the code cells of [t08/GNN_tutorial.ipynb]:
    the utility functions [get_predictions] and [accuracy], the layer
    [GraphConvolution], the two-layer model [GCN] and the training loop.

    Tensors are matrices of MathComp: a tensor of shape (N, F) is an
    ['M_(N, F)], so that the shapes the notebook relies on are part of the
    types, and [torch.mm] / [torch.spmm] are the matrix product.  The
    entries are taken in an ordered field [R]: rounding of the 32-bit
    floats of the notebook is not modelled.  What the tensor library does
    outside the field (a division by zero, a reduction over an empty
    dimension) is written out. *)

From HB Require Import structures.
From mathcomp Require Import ssreflect ssrfun ssrbool eqtype ssrnat seq choice.
From mathcomp Require Import fintype tuple finfun bigop finset fingroup perm order.
From mathcomp Require Import ssralg ssrnum ssrint rat matrix algC.

Set Implicit Arguments.
Unset Strict Implicit.
Unset Printing Implicit Defensive.

Import GRing.Theory Num.Theory Order.TTheory.
Local Open Scope ring_scope.

(** ** Values and outcomes of the tensor library *)

(** A Python call either returns or raises. *)
Variant exn := IndexError | ZeroDivisionError.

Variant outcome (T : Type) := Returns of T | Raises of exn.
Arguments Raises {T} e.

Definition bind T U (c : outcome T) (k : T -> outcome U) : outcome U :=
  match c with
  | Returns v => k v
  | Raises e => Raises e
  end.

Definition raised T (c : outcome T) : bool :=
  if c is Raises _ then true else false.

(** A 0-dim floating tensor obtained by a division: the quotient, or one
    of the special values a division by zero produces. *)
Variant scalar (R : Type) := Finite of R | PosInf | NegInf | NaN.
Arguments PosInf {R}.
Arguments NegInf {R}.
Arguments NaN {R}.

Section TensorOps.

Variable R : realFieldType.

(** [t / n] for a 0-dim floating tensor [t] and a Python integer [n]:
    no exception is raised when [n] is zero. *)
Definition true_divide (t : R) (n : nat) : scalar R :=
  if n is 0%N then
    if t == 0 then NaN else if 0 < t then PosInf else NegInf
  else Finite (t / n%:R).

(** [x / y] on Python floats: a zero divisor raises. *)
Definition float_div (x y : R) : outcome R :=
  if y == 0 then Raises ZeroDivisionError else Returns (x / y).

(** [out + b] for a matrix [out] and a vector [b] whose length is the
    number of columns of [out]: [b] is added to every row. *)
Definition broadcast_rows N m (b : 'rV[R]_m) : 'M[R]_(N, m) :=
  \matrix_(i, j) b 0 j.

(** Index of the maximum of a sequence, scanning from the left and keeping
    the first maximal value. *)
Fixpoint argmax_from (best : nat) (bv : R) (k : nat) (s : seq R) : nat :=
  if s is x :: s' then
    if bv < x then argmax_from k x k.+1 s' else argmax_from best bv k.+1 s'
  else best.

Definition argmax (s : seq R) : nat :=
  if s is x :: s' then argmax_from 0 x 1 s' else 0%N.

(** [j] is the position of the first maximal value of [s]. *)
Definition first_max (s : seq R) (j : nat) : Prop :=
  [/\ (j < size s)%N,
      forall k, (k < size s)%N -> nth 0 s k <= nth 0 s j
    & forall k, (k < j)%N -> nth 0 s k < nth 0 s j].

(** Row [i] of a tensor as the sequence of its entries. *)
Definition row_seq N C (out : 'M[R]_(N, C)) (i : 'I_N) : seq R :=
  [seq out i j | j <- enum 'I_C].

(** [out.max(1)[1]]: the index of the maximum of every row.  The reduction
    raises when the reduced dimension is empty. *)
Definition max_indices N C (out : 'M[R]_(N, C)) : outcome 'rV[nat]_N :=
  if C is 0%N then Raises IndexError
  else Returns (\row_i argmax (row_seq out i)).

(** [F.relu]. *)
Definition relu N m (x : 'M[R]_(N, m)) : 'M[R]_(N, m) :=
  map_mx (fun v => Num.max 0 v) x.

(** [t[idx]] for a matrix [t] and a sequence [idx] of row positions, and
    the same for a vector. *)
Definition index_rows N m (idx : seq 'I_N) (t : 'M[R]_(N, m))
  : 'M[R]_(size idx, m) :=
  \matrix_(r, j) t (tnth (in_tuple idx) r) j.

Definition index_entries (T : Type) N (idx : seq 'I_N) (t : 'rV[T]_N)
  : 'rV[T]_(size idx) :=
  \row_r t 0 (tnth (in_tuple idx) r).

End TensorOps.

(** ** Utility functions *)

Section Utility.

Variable R : realFieldType.
Variables N C : nat.

(** [get_predictions(output, labels)]: 1.0 where the predicted class of a
    row is its label, 0.0 elsewhere. *)
Definition get_predictions (output : 'M[R]_(N, C)) (labels : 'rV[int]_N)
  : outcome 'rV[R]_N :=
  bind (max_indices output) (fun idx =>
    let preds : 'rV[int]_N := map_mx Posz idx in
    let correct : 'rV[R]_N := \row_i (preds 0 i == labels 0 i)%:R in
    Returns correct).

(** [accuracy(output, labels)]. *)
Definition accuracy (output : 'M[R]_(N, C)) (labels : 'rV[int]_N)
  : outcome (scalar R) :=
  bind (get_predictions output labels) (fun correct =>
    let correct := \sum_i correct 0 i in
    Returns (true_divide correct N)).

End Utility.

(** ** The graph-convolution layer *)

Module GraphConvolution.

Section Layer.

Variable R : realFieldType.

Record t (in_features out_features : nat) := Build {
  weight : 'M[R]_(in_features, out_features);
  bias : 'rV[R]_out_features
}.

Variables in_features out_features : nat.

Definition forward (self : t in_features out_features) N
    (x : 'M[R]_(N, in_features)) (adj : 'M[R]_N) : 'M[R]_(N, out_features) :=
  let support := x *m weight self in
  let output := adj *m support in
  output + broadcast_rows N (bias self).

End Layer.

(** Construction.  The generator of the tensor library is a state [rng];
    [uniform_ lo hi g] fills a tensor of the given shape with draws between
    [lo] and [hi] and returns the generator's next state. *)
Section Init.

Variable R : rcfType.
Variable rng : Type.
Variable uniform_ : forall m n : nat, R -> R -> rng -> 'M[R]_(m, n) * rng.

Variables in_features out_features : nat.

(** [t.size(1)] *)
Definition size1 m n (T : Type) (_ : 'M[T]_(m, n)) : nat := n.

Definition reset_parameters (self : t R in_features out_features) (g : rng)
  : outcome (t R in_features out_features * rng) :=
  bind (float_div 1 (Num.sqrt (size1 (weight self))%:R)) (fun stdv =>
    let: (w, g) := uniform_ in_features out_features (- stdv) stdv g in
    let: (b, g) := uniform_ 1 out_features (- stdv) stdv g in
    Returns (Build w b, g)).

(** [GraphConvolution(in_features, out_features)]: the tensors allocated
    by [torch.FloatTensor] hold arbitrary values [w0] and [b0] until
    [reset_parameters] overwrites them. *)
Definition init (w0 : 'M[R]_(in_features, out_features))
    (b0 : 'rV[R]_out_features) (g : rng) :=
  reset_parameters (Build w0 b0) g.

End Init.

End GraphConvolution.

(** ** The two-layer model *)

Module GCN.

Section Model.

Variable R : realFieldType.

Record t (input_features hidden_dim num_classes : nat) := Build {
  gc1 : GraphConvolution.t R input_features hidden_dim;
  gc2 : GraphConvolution.t R hidden_dim num_classes
}.

Variables input_features hidden_dim num_classes : nat.

Definition forward (self : t input_features hidden_dim num_classes) N
    (x : 'M[R]_(N, input_features)) (adj : 'M[R]_N)
  : 'M[R]_(N, num_classes) :=
  let x := GraphConvolution.forward (gc1 self) x adj in
  let x := relu x in
  let x := GraphConvolution.forward (gc2 self) x adj in
  x.

End Model.

(** [GCN(input_features, hidden_dim, num_classes)]: the first layer is
    constructed, then the second, with the generator the first one left. *)
Section Init.

Variable R : rcfType.
Variable rng : Type.
Variable uniform_ : forall m n : nat, R -> R -> rng -> 'M[R]_(m, n) * rng.

Variables input_features hidden_dim num_classes : nat.

Definition init (w1 : 'M[R]_(input_features, hidden_dim))
    (b1 : 'rV[R]_hidden_dim) (w2 : 'M[R]_(hidden_dim, num_classes))
    (b2 : 'rV[R]_num_classes) (g : rng)
  : outcome (t R input_features hidden_dim num_classes * rng) :=
  bind (GraphConvolution.init uniform_ w1 b1 g) (fun l1 =>
    bind (GraphConvolution.init uniform_ w2 b2 l1.2) (fun l2 =>
      Returns (Build l1.1 l2.1, l2.2))).

End Init.

End GCN.

(** [gcn_accuracy(model)] on the index set [idx_test]. *)
Definition gcn_accuracy (R : realFieldType) F H C N
    (features : 'M[R]_(N, F)) (adj : 'M[R]_N) (labels : 'rV[int]_N)
    (idx_test : seq 'I_N) (model : GCN.t R F H C) : outcome (scalar R) :=
  let y_pred := GCN.forward model features adj in
  accuracy (index_rows idx_test y_pred) (index_entries idx_test labels).

(** ** The training loop *)

Section Training.

Variable R : realFieldType.
Variables F H C N : nat.

Variable features : 'M[R]_(N, F).
Variable adj : 'M[R]_N.
Variable labels : 'rV[int]_N.
Variable idx_train : seq 'I_N.

(** The loss, the automatic differentiation and the optimizer belong to the
    tensor library.  [backward f p buf] adds the gradient of [f] at [p] to
    the gradient buffers [buf]; [opt_step] is [opt.step()]. *)
Variable cross_entropy : forall m : nat, 'M[R]_(m, C) -> 'rV[int]_m -> R.
Variables grads opt_state : Type.
Variable zero_grad : grads.
Variable backward : (GCN.t R F H C -> R) -> GCN.t R F H C -> grads -> grads.
Variable opt_step :
  opt_state -> GCN.t R F H C -> grads -> opt_state * GCN.t R F H C.

Record loop_state := LoopState {
  gcn : GCN.t R F H C;
  opt : opt_state;
  grad : grads;
  losses : seq R
}.

(** The loss as a function of the parameters [p], as the autodiff graph
    records it: the forward pass runs on all the nodes, the loss looks at
    the rows of [idx_train]. *)
Definition train_loss (p : GCN.t R F H C) : R :=
  let output := GCN.forward p features adj in
  cross_entropy (index_rows idx_train output)
                (index_entries idx_train labels).

(** The body of the [for] loop: [opt.zero_grad()], the forward pass, the
    loss, [loss.backward()], [opt.step()], [losses.append(loss.item())].
    The model has no layer that behaves differently under [gcn.train()]. *)
Definition train_epoch (st : loop_state) (epoch : nat) : loop_state :=
  let g := zero_grad in
  let output := GCN.forward (gcn st) features adj in
  let loss := cross_entropy (index_rows idx_train output)
                            (index_entries idx_train labels) in
  let g := backward train_loss (gcn st) g in
  let: (o, p) := opt_step (opt st) (gcn st) g in
  LoopState p o g (rcons (losses st) loss).

(** [losses = []; for epoch in trange(E): ...] *)
Definition train (E : nat) (model : GCN.t R F H C) (o : opt_state)
    (g : grads) : loop_state :=
  foldl train_epoch (LoopState model o g [::]) (iota 0 E).

(** The loop of the notebook. *)
Definition train_gcn := train 1000.

End Training.

(** ** The perceptron *)

(** [nn.Linear]: the weight has one row per output feature. *)
Module Linear.

Section Layer.

Variable R : realFieldType.

Record t (in_features out_features : nat) := Build {
  weight : 'M[R]_(out_features, in_features);
  bias : 'rV[R]_out_features
}.

Variables in_features out_features : nat.

Definition forward (self : t in_features out_features) N
    (x : 'M[R]_(N, in_features)) : 'M[R]_(N, out_features) :=
  x *m (weight self)^T + broadcast_rows N (bias self).

End Layer.

End Linear.

(** [nn.Sequential(nn.Linear(d0, d1), nn.ReLU(), nn.Linear(d1, d2),
    nn.ReLU(), nn.Linear(d2, d3))]: the modules 0, 2 and 4 have
    parameters. *)
Module MLP.

Section Model.

Variable R : realFieldType.

Record t (d0 d1 d2 d3 : nat) := Build {
  l0 : Linear.t R d0 d1;
  l2 : Linear.t R d1 d2;
  l4 : Linear.t R d2 d3
}.

Variables d0 d1 d2 d3 : nat.

Definition forward (self : t d0 d1 d2 d3) N (x : 'M[R]_(N, d0))
  : 'M[R]_(N, d3) :=
  let x := Linear.forward (l0 self) x in
  let x := relu x in
  let x := Linear.forward (l2 self) x in
  let x := relu x in
  let x := Linear.forward (l4 self) x in
  x.

End Model.

End MLP.

(** [mlp_accuracy(model)] on the index set [idx_test]. *)
Definition mlp_accuracy (R : realFieldType) d0 d1 d2 C N
    (features : 'M[R]_(N, d0)) (labels : 'rV[int]_N)
    (idx_test : seq 'I_N) (model : MLP.t R d0 d1 d2 C) : outcome (scalar R) :=
  let y_pred := MLP.forward model (index_rows idx_test features) in
  accuracy y_pred (index_entries idx_test labels).

(** The training loop of the perceptron. *)
Section TrainingMLP.

Variable R : realFieldType.
Variables d0 d1 d2 C N : nat.

Variable features : 'M[R]_(N, d0).
Variable labels : 'rV[int]_N.
Variable idx_train : seq 'I_N.

Variable cross_entropy : forall m : nat, 'M[R]_(m, C) -> 'rV[int]_m -> R.
Variables grads opt_state : Type.
Variable zero_grad : grads.
Variable backward :
  (MLP.t R d0 d1 d2 C -> R) -> MLP.t R d0 d1 d2 C -> grads -> grads.
Variable opt_step :
  opt_state -> MLP.t R d0 d1 d2 C -> grads -> opt_state * MLP.t R d0 d1 d2 C.

Record mlp_loop_state := MLPLoopState {
  mlp : MLP.t R d0 d1 d2 C;
  mlp_opt : opt_state;
  mlp_grad : grads;
  mlp_losses : seq R
}.

Definition mlp_train_loss (p : MLP.t R d0 d1 d2 C) : R :=
  let output := MLP.forward p (index_rows idx_train features) in
  cross_entropy output (index_entries idx_train labels).

Definition mlp_train_epoch (st : mlp_loop_state) (epoch : nat)
  : mlp_loop_state :=
  let g := zero_grad in
  let output := MLP.forward (mlp st) (index_rows idx_train features) in
  let loss := cross_entropy output (index_entries idx_train labels) in
  let g := backward mlp_train_loss (mlp st) g in
  let: (o, p) := opt_step (mlp_opt st) (mlp st) g in
  MLPLoopState p o g (rcons (mlp_losses st) loss).

Definition mlp_train (E : nat) (model : MLP.t R d0 d1 d2 C) (o : opt_state)
    (g : grads) : mlp_loop_state :=
  foldl mlp_train_epoch (MLPLoopState model o g [::]) (iota 0 E).

(** The loop of the notebook. *)
Definition train_mlp := mlp_train 500.

End TrainingMLP.

(** ** The coordinates drawn by [plot_graph] *)

(** The part of [plot_graph] that computes the data of the two traces: the
    coordinates of the nodes, and for every edge the coordinates of its
    two ends followed by [None].  [edgeA] and [edgeB] are the two rows of
    [adj.indices()], [layt] is the layout; the figure itself belongs to
    the plotting library. *)
Section PlotGraph.

Variable T : Type.
Variable N : nat.
Variable layt : 'I_N -> T * T * T.

Definition coord0 (v : T * T * T) : T := v.1.1.
Definition coord1 (v : T * T * T) : T := v.1.2.
Definition coord2 (v : T * T * T) : T := v.2.

Definition node_coords : seq T * seq T * seq T :=
  let Xn := [seq coord0 (layt k) | k <- enum 'I_N] in
  let Yn := [seq coord1 (layt k) | k <- enum 'I_N] in
  let Zn := [seq coord2 (layt k) | k <- enum 'I_N] in
  (Xn, Yn, Zn).

Definition edge_step (acc : seq (option T) * seq (option T) * seq (option T))
    (e : 'I_N * 'I_N) :=
  let: (Xe, Ye, Ze) := acc in
  let Xe := Xe ++ [:: Some (coord0 (layt e.1)); Some (coord0 (layt e.2)); None] in
  let Ye := Ye ++ [:: Some (coord1 (layt e.1)); Some (coord1 (layt e.2)); None] in
  let Ze := Ze ++ [:: Some (coord2 (layt e.1)); Some (coord2 (layt e.2)); None] in
  (Xe, Ye, Ze).

Definition edge_coords (edgeA edgeB : seq 'I_N)
  : seq (option T) * seq (option T) * seq (option T) :=
  foldl edge_step ([::], [::], [::]) (zip edgeA edgeB).

End PlotGraph.

(** ** Reference definitions *)

(** [t.shape] of a 2-dim tensor. *)
Definition shape (T : Type) m n (_ : 'M[T]_(m, n)) : nat * nat := (m, n).

(** The two-layer perceptron of the specification, on the feature row [v]
    of one node: linear, relu, linear, with the weights and biases of the
    model. *)
Definition mlp_row (R : realFieldType) F H C (self : GCN.t R F H C)
    (v : 'rV[R]_F) : 'rV[R]_C :=
  let h := v *m GraphConvolution.weight (GCN.gc1 self)
           + GraphConvolution.bias (GCN.gc1 self) in
  relu h *m GraphConvolution.weight (GCN.gc2 self)
  + GraphConvolution.bias (GCN.gc2 self).


(** ** Concrete instances *)

(** A generator whose state is a counter: the draws alternate between the
    lower bound and the middle of the interval. *)
Definition counter_uniform (m n : nat) (lo hi : algR) (g : nat)
  : 'M[algR]_(m, n) * nat :=
  (const_mx (if odd g then lo else (lo + hi) / 2), g.+1).


(** Logits and labels of three nodes and two classes. *)
Definition logits3 : 'M[rat]_(3, 2) :=
  \matrix_(i, j) (if (i == j :> nat) then 2 else 1)%:R.

Definition labels3 : 'rV[int]_3 := \row_i Posz (i != 0 :> nat).

(** The same logits with the rows of the nodes 1 and 2 zeroed. *)
Definition logits3_row0 : 'M[rat]_(3, 2) :=
  \matrix_(i, j) (if (i == 0 :> nat) then logits3 i j else 0).

(** A model on two features, two hidden units and two classes. *)
Definition gcn2 : GCN.t rat 2 2 2 :=
  GCN.Build (GraphConvolution.Build 1%:M (const_mx (-1)))
            (GraphConvolution.Build (const_mx 1) (const_mx 2)).


(** Three nodes: an edge between the nodes 0 and 1, the node 2 alone, a
    self-loop on every node. *)
Definition adj3 : 'M[rat]_3 :=
  \matrix_(i, j) ((i == j :> nat) || (i + j == 1)%N)%:R.

(** The features [logits3] with the row of the node 2 zeroed. *)
Definition logits3_row2 : 'M[rat]_(3, 2) :=
  \matrix_(i, j) (if (i == 2 :> nat) then 0 else logits3 i j).

(** An adjacency matrix whose rows sum to 1, and equal features on all
    the nodes. *)
Definition mean3 : 'M[rat]_3 := const_mx (1 / 3%:R).

Definition ones3 : 'M[rat]_(3, 2) := const_mx 1.

(** A perceptron, and collaborators for its training loop: a loss that
    sums the logits, no gradient, an optimizer that counts its steps. *)
Definition mlp2 : MLP.t rat 2 2 2 2 :=
  MLP.Build (Linear.Build 1%:M (const_mx (-1)))
            (Linear.Build (const_mx 1) (const_mx 2))
            (Linear.Build 1%:M 0).

Definition sum_loss (m : nat) (output : 'M[rat]_(m, 2)) (_ : 'rV[int]_m)
  : rat :=
  \sum_i \sum_j output i j.

Definition no_backward (_ : MLP.t rat 2 2 2 2 -> rat) (_ : MLP.t rat 2 2 2 2)
    (g : unit) : unit := g.

Definition count_step (o : nat) (p : MLP.t rat 2 2 2 2) (_ : unit)
  : nat * MLP.t rat 2 2 2 2 := (o.+1, p).

Definition idx0 : seq 'I_3 := [:: ord0].

(** ** Facts about the tensor operations *)

Section ArgmaxFacts.

Variable R : realFieldType.
Implicit Types (s p : seq R) (x bv : R).

Lemma first_max_rcons_lt p x j :
  first_max p j -> nth 0 p j < x -> first_max (rcons p x) (size p).
Proof.
case=> jp maxj _ ltx; split; first by rewrite size_rcons.
- move=> k; rewrite size_rcons ltnS leq_eqVlt.
  rewrite [nth 0 _ (size p)]nth_rcons ltnn eqxx.
  case/orP=> [/eqP -> | kp]; first by rewrite nth_rcons ltnn eqxx.
  by rewrite nth_rcons kp; apply: le_trans (maxj k kp) (ltW ltx).
- move=> k kp; rewrite !nth_rcons kp ltnn eqxx.
  exact: le_lt_trans (maxj k kp) ltx.
Qed.

Lemma first_max_rcons_ge p x j :
  first_max p j -> x <= nth 0 p j -> first_max (rcons p x) j.
Proof.
case=> jp maxj firstj lex; split; first by rewrite size_rcons ltnW.
- move=> k; rewrite size_rcons ltnS leq_eqVlt !nth_rcons jp.
  case/orP=> [/eqP -> | kp]; first by rewrite ltnn eqxx.
  by rewrite kp; apply: maxj.
- move=> k kj; rewrite !nth_rcons jp (ltn_trans kj jp).
  exact: firstj.
Qed.

Lemma argmax_from_first_max s p best :
  first_max p best ->
  first_max (p ++ s) (argmax_from best (nth 0 p best) (size p) s).
Proof.
elim: s p best => [|x s IHs] p best pbest /=; first by rewrite cats0.
rewrite -cat_rcons; case: ltP => cmp.
- have := IHs (rcons p x) (size p) (first_max_rcons_lt pbest cmp).
  by rewrite size_rcons nth_rcons ltnn eqxx.
- have := IHs (rcons p x) best (first_max_rcons_ge pbest cmp).
  by case: pbest => bp _ _; rewrite size_rcons nth_rcons bp.
Qed.

Lemma argmax_first_max s : s != [::] -> first_max s (argmax s).
Proof.
case: s => [|x s] // _.
have base : first_max [:: x] 0 by split=> // [[|k]].
exact: (argmax_from_first_max s base).
Qed.

Lemma first_max_inj s j1 j2 : first_max s j1 -> first_max s j2 -> j1 = j2.
Proof.
case=> j1s max1 first1 [j2s max2 first2].
case: (ltngtP j1 j2) => // [lt12 | lt21].
- by have := first2 _ lt12; rewrite ltNge max1.
- by have := first1 _ lt21; rewrite ltNge max2.
Qed.

Lemma argmax_eq s j : first_max s j -> argmax s = j.
Proof.
move=> max_j; have s_neq0 : s != [::] by case: s max_j => [[]|].
exact: first_max_inj (argmax_first_max s_neq0) max_j.
Qed.



End ArgmaxFacts.

Section RowFacts.

Variable R : realFieldType.

Lemma size_row_seq N C (out : 'M[R]_(N, C)) i : size (row_seq out i) = C.
Proof. by rewrite /row_seq size_map size_enum_ord. Qed.

Lemma nth_row_seq N C (out : 'M[R]_(N, C)) i (j : 'I_C) :
  nth 0 (row_seq out i) j = out i j.
Proof.
rewrite /row_seq (nth_map j) ?size_enum_ord //.
by rewrite nth_ord_enum.
Qed.

Lemma row_seq_row_perm N C (s : 'S_N) (out : 'M[R]_(N, C)) i :
  row_seq (row_perm s out) i = row_seq out (s i).
Proof. by apply: eq_map => j; rewrite mxE. Qed.


(** The index [max_indices] returns for a row is the position of the
    first maximum of that row. *)
Lemma argmax_row N C (out : 'M[R]_(N, C.+1)) i :
  exists j : 'I_C.+1,
    [/\ argmax (row_seq out i) = j,
        forall k, out i k <= out i j
      & forall k : 'I_C.+1, (k < j)%N -> out i k < out i j].
Proof.
have nonempty : row_seq out i != [::] by rewrite -size_eq0 size_row_seq.
have [] := argmax_first_max nonempty.
rewrite size_row_seq => ltC maxj firstj.
exists (Ordinal ltC); split=> // [k | k kj].
- by have := maxj k (ltn_ord k); rewrite nth_row_seq (nth_row_seq _ _ (Ordinal ltC)).
- by have := firstj k kj; rewrite nth_row_seq (nth_row_seq _ _ (Ordinal ltC)).
Qed.

(** A sum of 0/1 indicators counts. *)
Lemma sum_indicator (I : finType) (P : pred I) :
  \sum_i (P i)%:R = (#|P|)%:R :> R.
Proof.
rewrite -sum1_card natr_sum [RHS]big_mkcond /=.
by apply: eq_bigr => i _; rewrite unfold_in; case: (P i).
Qed.

End RowFacts.

(** ** The graph-convolution layer *)

Section LayerFacts.

Variable R : realFieldType.
Variables in_features out_features N : nat.
Implicit Types (self : GraphConvolution.t R in_features out_features).
Implicit Types (x : 'M[R]_(N, in_features)) (adj : 'M[R]_N).

Import GraphConvolution.

Lemma broadcast_rows0 m : broadcast_rows N (0 : 'rV[R]_m) = 0.
Proof. by apply/matrixP => i j; rewrite !mxE. Qed.

Lemma row_broadcast_rows m (b : 'rV[R]_m) (i : 'I_N) :
  row i (broadcast_rows N b) = b.
Proof. by apply/rowP => j; rewrite !mxE. Qed.

Lemma forward_entry self x adj i j :
  forward self x adj i j
  = \sum_k adj i k * (\sum_l x k l * weight self l j) + bias self 0 j.
Proof.
rewrite /forward !mxE; congr (_ + _).
by apply: eq_bigr => k _; rewrite mxE.
Qed.

(** C1: the forward pass of the layer returns the N x out_features matrix
    adj * (x * weight) with the bias added to every row: its entry (i, j)
    is the sum over k of adj(i,k) * (sum over l of x(k,l) * weight(l,j)),
    plus bias(j). *)
Theorem forward_spec self x adj :
  [/\ forward self x adj
       = adj *m (x *m weight self) + broadcast_rows N (bias self),
      forall i j,
        forward self x adj i j
        = \sum_k adj i k * (\sum_l x k l * weight self l j) + bias self 0 j
    & shape (forward self x adj) = (N, out_features)].
Proof.
by split=> // i j; apply: forward_entry.
Qed.

(** C2: with a zero bias the forward pass is linear in the features, and
    in general forward(a x1 + c x2, adj) is
    a forward(x1, adj) + c forward(x2, adj) - (a + c - 1) bias, the bias
    being added to every row. *)
Theorem forward_affine (w : 'M[R]_(in_features, out_features))
    (b : 'rV[R]_out_features) x1 x2 adj (a c : R) :
  forward (Build w 0) (a *: x1 + c *: x2) adj
  = a *: forward (Build w 0) x1 adj + c *: forward (Build w 0) x2 adj
  /\ forward (Build w b) (a *: x1 + c *: x2) adj
     = a *: forward (Build w b) x1 adj + c *: forward (Build w b) x2 adj
       - (a + c - 1) *: broadcast_rows N b.
Proof.
rewrite /forward /= broadcast_rows0 !addr0.
rewrite mulmxDl mulmxDr -!scalemxAl -!scalemxAr; split=> //.
rewrite !scalerDr scalerBl scalerDl scale1r opprB.
set P := a *: _; set Q := c *: (adj *m _); set B := broadcast_rows N b.
by rewrite [X in _ = X + _]addrACA -[RHS]addrA [X in _ = _ + X]addrC subrK.
Qed.

End LayerFacts.

(** The layer commutes with a renumbering of the nodes. *)
Section LayerPerm.

Variable R : realFieldType.
Variables in_features out_features N : nat.

Lemma relu_row_perm m (s : 'S_N) (x : 'M[R]_(N, m)) :
  relu (row_perm s x) = row_perm s (relu x).
Proof. by apply/matrixP => i j; rewrite !mxE. Qed.

Lemma layer_forward_perm (self : GraphConvolution.t R in_features out_features)
    (s : 'S_N) (x : 'M[R]_(N, in_features)) (adj : 'M[R]_N) :
  GraphConvolution.forward self (row_perm s x) (row_perm s (col_perm s adj))
  = row_perm s (GraphConvolution.forward self x adj).
Proof.
apply/matrixP => i j; rewrite /GraphConvolution.forward !mxE; congr (_ + _).
rewrite [RHS](reindex_inj (@perm_inj _ s)) /=.
apply: eq_bigr => k _; rewrite !mxE; congr (_ * _).
by apply: eq_bigr => l _; rewrite !mxE.
Qed.

End LayerPerm.

(** ** The two-layer model *)

Section ModelFacts.

Variable R : realFieldType.
Variables F H C N : nat.
Implicit Types (self : GCN.t R F H C) (x : 'M[R]_(N, F)) (adj : 'M[R]_N).

Import GraphConvolution.

(** C4: the model is the second layer applied to the relu of the first
    layer; relu is applied once, between the layers, and the logits are
    returned as the second layer computes them, without a softmax: with a
    zero second weight they are the second bias, whatever it is. *)
Theorem GCN_forward_spec self x adj :
  [/\ GCN.forward self x adj
      = forward (GCN.gc2 self) (relu (forward (GCN.gc1 self) x adj)) adj,
      forall i j,
        GCN.forward self x adj i j
        = \sum_k adj i k *
            (\sum_l Num.max 0 (forward (GCN.gc1 self) x adj k l)
                    * weight (GCN.gc2 self) l j)
          + bias (GCN.gc2 self) 0 j
    & forall (b2 : 'rV[R]_C) i j,
        GCN.forward (GCN.Build (GCN.gc1 self) (Build 0 b2)) x adj i j
        = b2 0 j].
Proof.
split=> // [i j | b2 i j].
- rewrite /GCN.forward forward_entry; congr (_ + _).
  apply: eq_bigr => k _; congr (_ * _).
  by apply: eq_bigr => l _; rewrite !mxE.
- by rewrite /GCN.forward /forward /= !mulmx0 add0r mxE.
Qed.

Lemma GCN_forward_perm self (s : 'S_N) x adj :
  GCN.forward self (row_perm s x) (row_perm s (col_perm s adj))
  = row_perm s (GCN.forward self x adj).
Proof.
by rewrite /GCN.forward layer_forward_perm relu_row_perm layer_forward_perm.
Qed.

(** C8: with the identity as adjacency matrix every row of the output is
    the two-layer perceptron applied to the same row of the features, so
    that row [i] of the output depends on row [i] of the features only. *)
Theorem GCN_identity_adjacency self x :
  (forall i, row i (GCN.forward self x 1%:M) = mlp_row self (row i x))
  /\ (forall x' i, row i x = row i x' ->
        row i (GCN.forward self x 1%:M) = row i (GCN.forward self x' 1%:M)).
Proof.
have rowE (y : 'M[R]_(N, F)) i :
    row i (GCN.forward self y 1%:M) = mlp_row self (row i y).
  rewrite /GCN.forward /forward /mlp_row /relu !mul1mx.
  rewrite raddfD /= row_mul -map_row raddfD /= row_mul.
  by rewrite !row_broadcast_rows.
by split=> [// | x' i eq_row]; rewrite !rowE eq_row.
Qed.

End ModelFacts.

(** ** The accuracy *)

Section AccuracyFacts.

Variable R : realFieldType.

Lemma accuracy_returns N C (output : 'M[R]_(N, C.+1)) (labels : 'rV[int]_N) :
  accuracy output labels
  = Returns (true_divide
      (\sum_i (Posz (argmax (row_seq output i)) == labels 0 i)%:R) N).
Proof.
rewrite /accuracy /get_predictions /=; congr (Returns (true_divide _ _)).
by apply: eq_bigr => i _; rewrite !mxE.
Qed.

Lemma accuracy_raises N (output : 'M[R]_(N, 0)) (labels : 'rV[int]_N) :
  accuracy output labels = Raises IndexError.
Proof. by []. Qed.

Lemma accuracy_row_perm N C (s : 'S_N) (output : 'M[R]_(N, C))
    (labels : 'rV[int]_N) :
  accuracy (row_perm s output) (col_perm s labels) = accuracy output labels.
Proof.
case: C output => [|C] output //; rewrite !accuracy_returns.
congr (Returns (true_divide _ _)).
rewrite [RHS](reindex_inj (@perm_inj _ s)) /=.
by apply: eq_bigr => i _; rewrite row_seq_row_perm mxE.
Qed.


Lemma row_seq2 N (output : 'M[R]_(N, 2)) i :
  row_seq output i = [:: output i ord0; output i (lift ord0 ord0)].
Proof. by rewrite /row_seq enum_ordSl enum_ordSl enum_ord0. Qed.

(** C5: on a logits matrix with at least one row and one column, the
    accuracy is the number of rows whose label is the position of the
    (first) maximum of the row, divided by the number of rows. *)
Theorem accuracy_spec N C (output : 'M[R]_(N.+1, C.+1))
    (labels : 'rV[int]_N.+1) :
  accuracy output labels
  = Returns (Finite
      ((#|[pred i | Posz (argmax (row_seq output i)) == labels 0 i]|)%:R
       / N.+1%:R))
  /\ forall i, exists j : 'I_C.+1,
       [/\ argmax (row_seq output i) = j,
           forall k, output i k <= output i j
         & forall k : 'I_C.+1, (k < j)%N -> output i k < output i j].
Proof.
split; last exact: argmax_row.
by rewrite accuracy_returns /true_divide sum_indicator.
Qed.

(** C6, as the code has it: on an index set of size zero (a logits matrix
    without rows, an empty label vector) the accuracy raises nothing and
    returns NaN. *)
Theorem accuracy_empty C (output : 'M[R]_(0, C.+1)) (labels : 'rV[int]_0) :
  accuracy output labels = Returns NaN.
Proof. by rewrite accuracy_returns big_ord0 /true_divide eqxx. Qed.


End AccuracyFacts.

(** ** Renumbering the nodes *)

Section Relabeling.

Variable R : realFieldType.
Variables F H C N : nat.

Lemma accuracy_index_rows C' (idx : seq 'I_N) (output : 'M[R]_(N, C'.+1))
    (labels : 'rV[int]_N) :
  accuracy (index_rows idx output) (index_entries idx labels)
  = Returns (true_divide
      (\sum_(i <- idx) (Posz (argmax (row_seq output i)) == labels 0 i)%:R)
      (size idx)).
Proof.
rewrite accuracy_returns; congr (Returns (true_divide _ _)).
rewrite [RHS]big_tnth; apply: eq_bigr => r _; rewrite mxE.
by congr ((Posz (argmax _) == _)%:R); apply: eq_map => j; rewrite mxE.
Qed.

Lemma gcn_accuracy_returns C' (features : 'M[R]_(N, F)) (adj : 'M[R]_N)
    (labels : 'rV[int]_N) (idx : seq 'I_N) (model : GCN.t R F H C'.+1) :
  gcn_accuracy features adj labels idx model
  = Returns (true_divide
      (\sum_(i <- idx)
         (Posz (argmax (row_seq (GCN.forward model features adj) i))
          == labels 0 i)%:R)
      (size idx)).
Proof. exact: accuracy_index_rows. Qed.

(** C7: renumbering the nodes by a permutation [s], in the rows of the
    features, in the rows and columns of the adjacency matrix and in the
    labels, leaves the accuracy of the model unchanged, on all the nodes
    and on every index set renumbered in the same way. *)
Theorem accuracy_relabeling (self : GCN.t R F H C) (s : 'S_N)
    (x : 'M[R]_(N, F)) (adj : 'M[R]_N) (labels : 'rV[int]_N) :
  accuracy (GCN.forward self (row_perm s x) (row_perm s (col_perm s adj)))
           (col_perm s labels)
  = accuracy (GCN.forward self x adj) labels
  /\ forall idx : seq 'I_N,
       gcn_accuracy (row_perm s x) (row_perm s (col_perm s adj))
                    (col_perm s labels) [seq (s^-1)%g i | i <- idx] self
       = gcn_accuracy x adj labels idx self.
Proof.
rewrite GCN_forward_perm accuracy_row_perm; split=> // idx.
case: C self => [|C'] self //; rewrite !gcn_accuracy_returns size_map.
congr (Returns (true_divide _ _)); rewrite big_map.
apply: eq_bigr => i _.
by rewrite GCN_forward_perm row_seq_row_perm mxE permKV.
Qed.

End Relabeling.

(** ** The training loop *)

Section TrainingFacts.

Variable R : realFieldType.
Variables F H C N : nat.
Variable features : 'M[R]_(N, F).
Variable adj : 'M[R]_N.
Variable labels : 'rV[int]_N.
Variable idx_train : seq 'I_N.
Variable cross_entropy : forall m : nat, 'M[R]_(m, C) -> 'rV[int]_m -> R.
Variables grads opt_state : Type.
Variable zero_grad : grads.
Variable backward : (GCN.t R F H C -> R) -> GCN.t R F H C -> grads -> grads.
Variable opt_step :
  opt_state -> GCN.t R F H C -> grads -> opt_state * GCN.t R F H C.

Local Notation loss :=
  (train_loss features adj labels idx_train cross_entropy
   : GCN.t R F H C -> R).
Local Notation run :=
  (train features adj labels idx_train cross_entropy zero_grad backward
         opt_step).
Local Notation epoch :=
  (train_epoch features adj labels idx_train cross_entropy zero_grad backward
               opt_step).

Lemma trainS E model o g : run E.+1 model o g = epoch (run E model o g) E.
Proof. by rewrite /train -addn1 iotaD /= foldl_cat. Qed.

Lemma losses_trainS E model o g :
  losses (run E.+1 model o g)
  = rcons (losses (run E model o g)) (loss (gcn (run E model o g))).
Proof. by rewrite trainS /train_epoch; case: opt_step. Qed.

Lemma size_losses E model o g : size (losses (run E model o g)) = E.
Proof.
by elim: E => [|E IHE] //; rewrite losses_trainS size_rcons IHE.
Qed.

Lemma nth_losses E model o g k :
  (k < E)%N -> nth 0 (losses (run E model o g)) k = loss (gcn (run k model o g)).
Proof.
elim: E => [|E IHE] //; rewrite ltnS leq_eqVlt losses_trainS nth_rcons.
rewrite size_losses; case/orP=> [/eqP -> | ltkE]; first by rewrite ltnn eqxx.
by rewrite ltkE IHE.
Qed.

(** The loop of the notebook records 1000 losses. *)
Lemma size_losses_train_gcn model o g :
  size (losses (train_gcn features adj labels idx_train cross_entropy
                          zero_grad backward opt_step model o g)) = 1000%N.
Proof. exact: size_losses. Qed.

(** C9: for every epoch budget [E] the loop runs its body [E] times,
    whatever the losses are.  The body computes the logits of all the [N]
    nodes in one forward pass of the model, takes the cross entropy of
    the rows of [idx_train] against the labels of [idx_train], makes one
    optimizer step from the gradient of that loss, and appends the loss:
    [E] losses are recorded, the [k]-th being the loss of the parameters
    reached after [k] steps. *)
Theorem train_spec E model o g :
  [/\ size (losses (run E model o g)) = E,
      forall k : 'I_E,
        nth 0 (losses (run E model o g)) k = loss (gcn (run k model o g)),
      forall k,
        let st := run k model o g in
        let st' := run k.+1 model o g in
        grad st' = backward loss (gcn st) zero_grad
        /\ (opt st', gcn st') = opt_step (opt st) (gcn st) (grad st'),
      run 0 model o g = LoopState model o g [::]
    & forall p,
        let output := GCN.forward p features adj in
        shape output = (N, C)
        /\ loss p = cross_entropy (index_rows idx_train output)
                                 (index_entries idx_train labels)].
Proof.
split=> // [|k|k]; first exact: size_losses.
- exact: nth_losses.
- rewrite /= trainS /train_epoch.
  by case step: (opt_step _ _ _) => [o' p'] /=; rewrite step.
Qed.

End TrainingFacts.

(** ** Construction of the layer *)

Section InitFacts.

Variable R : rcfType.
Variable rng : Type.
Variable uniform_ : forall m n : nat, R -> R -> rng -> 'M[R]_(m, n) * rng.

Import GraphConvolution.

(** What the construction relies on: the draws lie between the bounds. *)
Hypothesis uniform_range :
  forall m n lo hi g i j,
    lo <= hi -> lo <= (uniform_ m n lo hi g).1 i j <= hi.

Lemma stdv_gt0 n : (0 < n)%N -> 0 < 1 / Num.sqrt n%:R :> R.
Proof. by move=> n_gt0; rewrite div1r invr_gt0 sqrtr_gt0 ltr0n. Qed.

(** Without output features the construction fails. *)
Lemma init_no_output_features in_features (w0 : 'M[R]_(in_features, 0))
    (b0 : 'rV[R]_0) g :
  init uniform_ w0 b0 g = Raises ZeroDivisionError.
Proof. by rewrite /init /reset_parameters /size1 /float_div sqrtr0 eqxx. Qed.

(** C3: constructing a layer with a positive number of output features
    fills the weight, then the bias, by draws of the generator between
    -1/sqrt(out_features) and 1/sqrt(out_features): every entry of both
    lies between these bounds, which depend on the number of output
    features only. *)
Theorem reset_parameters_spec in_features out_features
    (w0 : 'M[R]_(in_features, out_features)) (b0 : 'rV[R]_out_features) g :
  (0 < out_features)%N ->
  let stdv := 1 / Num.sqrt out_features%:R in
  exists w b g1 g2,
    [/\ init uniform_ w0 b0 g = Returns (Build w b, g2),
        uniform_ in_features out_features (- stdv) stdv g = (w, g1),
        uniform_ 1 out_features (- stdv) stdv g1 = (b, g2),
        forall i j, - stdv <= w i j <= stdv
      & forall j, - stdv <= b 0 j <= stdv].
Proof.
move=> out_gt0 stdv; have stdv_gt0 : 0 < stdv by apply: stdv_gt0.
have bounds : - stdv <= stdv by rewrite -subr_ge0 opprK addr_ge0 // ltW.
case wE: (uniform_ in_features out_features (- stdv) stdv g) => [w g1].
case bE: (uniform_ 1 out_features (- stdv) stdv g1) => [b g2].
exists w, b, g1, g2; split=> // [|i j|j].
- have /negPf sqrt_neq0 : Num.sqrt out_features%:R != 0 :> R.
    by rewrite gt_eqF // sqrtr_gt0 ltr0n.
  by rewrite /init /reset_parameters /size1 /float_div sqrt_neq0 /= -/stdv wE bE.
- by have := uniform_range g i j bounds; rewrite wE.
- by have := @uniform_range 1 out_features _ _ g1 0 j bounds; rewrite bE.
Qed.

End InitFacts.

(** ** Instances *)

Lemma counter_uniform_range m n (lo hi : algR) (g : nat) i j :
  lo <= hi -> lo <= (counter_uniform m n lo hi g).1 i j <= hi.
Proof.
move=> le_lohi; rewrite /counter_uniform /= mxE.
by case: (odd g); rewrite ?lexx ?le_lohi // !midf_le.
Qed.

Lemma reset_parameters_witness :
  (0 < 4)%N
  /\ let stdv : algR := 1 / Num.sqrt 4%:R in
     exists w b g1 g2,
       [/\ GraphConvolution.init counter_uniform
             (0 : 'M[algR]_(2, 4)) (0 : 'rV[algR]_4) 0%N
           = Returns (GraphConvolution.Build w b, g2),
           counter_uniform 2 4 (- stdv) stdv 0%N = (w, g1),
           counter_uniform 1 4 (- stdv) stdv g1 = (b, g2),
           forall i j, - stdv <= w i j <= stdv
         & forall j, - stdv <= b 0 j <= stdv].
Proof.
split=> //.
exact: (@reset_parameters_spec algR nat counter_uniform counter_uniform_range
          2 4 0 0 0%N isT).
Defined.



(** With an adjacency matrix of ones every node receives the sum of the
    supports of all the nodes: entry (0, 0) is 2 + 1 + 1, plus the bias. *)
Example forward_all_ones :
  GraphConvolution.forward
    (GraphConvolution.Build (1%:M : 'M[rat]_2) (const_mx 1))
    logits3 (const_mx 1) ord0 ord0 = 5%:R.
Proof.
rewrite /GraphConvolution.forward /=.
by rewrite !(big_ord_recl, big_ord0, mxE) /=; apply/eqP.
Qed.

(** The model [gcn2] on the node 0 of [logits3], alone in its component:
    (2, 1) - 1 = (1, 0), its relu is (1, 0), and 1 + 0 + 2 = 3. *)
Example forward_gcn2 : GCN.forward gcn2 logits3 1%:M ord0 ord0 = 3%:R.
Proof.
rewrite /GCN.forward /GraphConvolution.forward /gcn2 /=.
by rewrite !(big_ord_recl, big_ord0, mxE) /=; apply/eqP.
Qed.

(** The first of two equal maxima is the one returned. *)
Example argmax_ties : argmax [:: 1; 3; 3; 2 : rat] = 1%N.
Proof. by []. Qed.

(** Two of the three nodes of [logits3] are classified as [labels3] says:
    the third row is a tie, resolved to class 0. *)
Example accuracy_logits3 :
  accuracy logits3 labels3 = Returns (Finite (2%:R / 3%:R)).
Proof.
rewrite accuracy_returns /true_divide; congr (Returns (Finite (_ / _))).
by rewrite !big_ord_recl big_ord0 !row_seq2 !mxE.
Qed.

Lemma accuracy_spec_witness :
  accuracy logits3 labels3
  = Returns (Finite
      ((#|[pred i | Posz (argmax (row_seq logits3 i)) == labels3 0 i]|)%:R
       / 3%:R))
  /\ exists j : 'I_2,
       [/\ argmax (row_seq logits3 (lift ord0 ord0)) = j,
           forall k, logits3 (lift ord0 ord0) k <= logits3 (lift ord0 ord0) j
         & forall k : 'I_2, (k < j)%N ->
             logits3 (lift ord0 ord0) k < logits3 (lift ord0 ord0) j].
Proof.
have [acc rows] := accuracy_spec logits3 labels3.
by split; [exact: acc | exact: rows].
Defined.


(** C6 as stated fails: on the logits of an empty index set, seven classes
    wide, [accuracy] raises no error and returns NaN. *)
Lemma accuracy_empty_returns_nan :
  accuracy (0 : 'M[rat]_(0, 7)) (0 : 'rV[int]_0) = Returns NaN
  /\ raised (accuracy (0 : 'M[rat]_(0, 7)) (0 : 'rV[int]_0)) = false.
Proof.
have -> : accuracy (0 : 'M[rat]_(0, 7)) (0 : 'rV[int]_0) = Returns NaN.
  by rewrite accuracy_returns big_ord0 /true_divide eqxx.
by [].
Qed.

Lemma GCN_identity_adjacency_witness :
  row 0 logits3 = row 0 logits3_row0
  /\ row 0 (GCN.forward gcn2 logits3 1%:M)
     = row 0 (GCN.forward gcn2 logits3_row0 1%:M).
Proof.
have eq_row0 : row 0 logits3 = row 0 logits3_row0.
  by apply/rowP => j; rewrite !mxE.
split=> //.
exact: (proj2 (GCN_identity_adjacency gcn2 logits3) logits3_row0 0 eq_row0).
Defined.

(** * Further properties of the notebook *)

(** ** The utility functions *)

Section AccuracyMore.

Variable R : realFieldType.

Lemma get_predictions_returns N C (output : 'M[R]_(N, C.+1))
    (labels : 'rV[int]_N) :
  get_predictions output labels
  = Returns (\row_i (Posz (argmax (row_seq output i)) == labels 0 i)%:R).
Proof.
rewrite /get_predictions /=; congr (Returns _).
by apply/rowP => i; rewrite !mxE.
Qed.

Lemma row_seq_index_rows N C (idx : seq 'I_N) (output : 'M[R]_(N, C)) r :
  row_seq (index_rows idx output) r = row_seq output (tnth (in_tuple idx) r).
Proof. by apply: eq_map => j; rewrite mxE. Qed.


Lemma accuracy_card N C (output : 'M[R]_(N, C.+1)) (labels : 'rV[int]_N) :
  accuracy output labels
  = Returns (true_divide
      (#|[pred i | Posz (argmax (row_seq output i)) == labels 0 i]|)%:R N).
Proof. by rewrite accuracy_returns sum_indicator. Qed.

(** X1: on a logits matrix with at least one row and one column the
    accuracy is a number between 0 and 1. *)
Theorem accuracy_range N C (output : 'M[R]_(N.+1, C.+1))
    (labels : 'rV[int]_N.+1) :
  exists a, accuracy output labels = Returns (Finite a) /\ 0 <= a <= 1.
Proof.
rewrite accuracy_card /true_divide; eexists; split; first by [].
rewrite divr_ge0 ?ler0n //= ler_pdivrMr ?ltr0n // mul1r ler_nat.
by rewrite -[X in (_ <= X)%N]card_ord max_card.
Qed.

(** X2: the accuracy is 1 exactly when the first maximum of every row is
    at its label, and 0 exactly when it is at its label in no row. *)
Theorem accuracy_extremes N C (output : 'M[R]_(N.+1, C.+1))
    (labels : 'rV[int]_N.+1) :
  (accuracy output labels = Returns (Finite 1)
   <-> forall i, Posz (argmax (row_seq output i)) = labels 0 i)
  /\ (accuracy output labels = Returns (Finite 0)
      <-> forall i, Posz (argmax (row_seq output i)) <> labels 0 i).
Proof.
rewrite accuracy_card /true_divide.
set P := [pred i | _]; have n_neq0 : N.+1%:R != 0 :> R by rewrite pnatr_eq0.
split; split.
- case=> /eqP; rewrite -(inj_eq (mulIf n_neq0)) divfK // mul1r eqr_nat.
  move=> /eqP card_P i.
  have card_eq : #|P| = #|'I_N.+1| by rewrite card_ord.
  have /(subset_cardP card_eq) all_P : P \subset 'I_N.+1 by apply/subsetP.
  by apply/eqP; have := all_P i; rewrite !inE.
- move=> all_P; have -> : #|P| = N.+1.
    rewrite -[RHS]card_ord; apply: eq_card => i.
    by rewrite !inE; apply/eqP.
  by rewrite divff.
- case=> /eqP; rewrite mulf_eq0 invr_eq0 (negPf n_neq0) orbF pnatr_eq0.
  move=> /eqP/card0_eq no_P i /eqP Pi.
  by have := no_P i; rewrite !inE Pi.
- move=> no_P; have -> : #|P| = 0%N.
    apply: eq_card0 => i; rewrite !inE.
    by apply/negbTE/eqP/no_P.
  by rewrite mul0r.
Qed.


(** X4: [get_predictions] commutes with the selection of rows: on the
    rows [idx] of the logits and the entries [idx] of the labels it
    returns the entries [idx] of what it returns on the whole. *)
Theorem get_predictions_index_rows N C (idx : seq 'I_N)
    (output : 'M[R]_(N, C)) (labels : 'rV[int]_N) :
  get_predictions (index_rows idx output) (index_entries idx labels)
  = bind (get_predictions output labels) (fun correct =>
      Returns (index_entries idx correct)).
Proof.
case: C output => [|C] output //; rewrite !get_predictions_returns /=.
congr (Returns _); apply/rowP => r.
by rewrite !mxE row_seq_index_rows.
Qed.

End AccuracyMore.

(** ** The layer and the model on the graph *)

Section GraphMore.

Variable R : realFieldType.

Import GraphConvolution.

Lemma layer_forward_local F H N (self : t R F H) (x x' : 'M[R]_(N, F))
    (adj : 'M[R]_N) i :
  (forall k, adj i k != 0 -> row k x = row k x') ->
  row i (forward self x adj) = row i (forward self x' adj).
Proof.
move=> same_rows; apply/rowP => j; rewrite ![row _ _ _ _]mxE !forward_entry.
congr (_ + _); apply: eq_bigr => k _.
have [-> | /same_rows eq_k] := eqVneq (adj i k) 0; first by rewrite !mul0r.
congr (_ * _); apply: eq_bigr => l _.
by move/rowP/(_ l): eq_k; rewrite !mxE => ->.
Qed.

Lemma layer_forward_constant F H N (self : t R F H) (x : 'M[R]_(N, F))
    (adj : 'M[R]_N) (v : 'rV[R]_F) i :
  \sum_k adj i k = 1 -> (forall k, row k x = v) ->
  row i (forward self x adj) = v *m weight self + bias self.
Proof.
move=> sum1 rows_v; apply/rowP => j.
rewrite [row _ _ _ _]mxE forward_entry [RHS]mxE [(_ *m _) _ _]mxE.
congr (_ + _).
have -> : \sum_k adj i k * (\sum_l x k l * weight self l j)
          = \sum_k adj i k * (\sum_l v 0 l * weight self l j).
  apply: eq_bigr => k _; congr (_ * _); apply: eq_bigr => l _.
  by rewrite -(rows_v k) mxE.
by rewrite -mulr_suml sum1 mul1r.
Qed.

Variables F H C N : nat.
Implicit Types (self : GCN.t R F H C) (x : 'M[R]_(N, F)) (adj : 'M[R]_N).

(** X5: one layer looks at the neighbours only: row [i] of its output is
    the same for two feature matrices that agree on the rows [k] with
    adj(i, k) nonzero. *)
Theorem forward_neighbours (layer : t R F H) x x' adj i :
  (forall k, adj i k != 0 -> row k x = row k x') ->
  row i (forward layer x adj) = row i (forward layer x' adj).
Proof. exact: layer_forward_local. Qed.

(** X6: the model looks two steps away at most: row [i] of its output is
    the same for two feature matrices that agree on the rows [k] reached
    from [i] by two nonzero entries adj(i, m), adj(m, k). *)
Theorem GCN_forward_two_hops self x x' adj i :
  (forall m k, adj i m != 0 -> adj m k != 0 -> row k x = row k x') ->
  row i (GCN.forward self x adj) = row i (GCN.forward self x' adj).
Proof.
move=> same_rows; rewrite /GCN.forward.
apply: layer_forward_local => m adj_im.
rewrite /relu -!map_row; congr (map_mx _ _).
by apply: layer_forward_local => k; apply: same_rows.
Qed.

(** X7: with a zero adjacency matrix the layer returns its bias in every
    row, and so does the model, whatever the features and the first
    layer. *)
Theorem forward_zero_adjacency self (layer : t R F H) x :
  forward layer x 0 = broadcast_rows N (bias layer)
  /\ GCN.forward self x 0 = broadcast_rows N (bias (GCN.gc2 self)).
Proof. by rewrite /GCN.forward /forward !mul0mx !add0r. Qed.

(** X8: the layer is [nn.Linear], with the transposed weight and the
    same bias, applied to the features summed over the neighbours. *)
Theorem forward_linear_aggregate (layer : t R F H) x adj :
  forward layer x adj
  = Linear.forward (Linear.Build (weight layer)^T (bias layer)) (adj *m x).
Proof. by rewrite /forward /Linear.forward /= trmxK mulmxA. Qed.

(** X9: when the rows of the adjacency matrix sum to 1 and all the nodes
    have the features [v], every row of the output of the model is the
    two-layer perceptron of [v]. *)
Theorem GCN_forward_constant self x adj (v : 'rV[R]_F) :
  (forall i, \sum_k adj i k = 1) -> (forall i, row i x = v) ->
  forall i, row i (GCN.forward self x adj) = mlp_row self v.
Proof.
move=> sum1 rows_v i; rewrite /GCN.forward /mlp_row.
apply: layer_forward_constant => // k.
by rewrite /relu -map_row (layer_forward_constant _ (sum1 k) rows_v).
Qed.

(** X10: renumbering the nodes renumbers the output of the model and the
    vector of [get_predictions] in the same way. *)
Theorem GCN_predictions_relabeling self (s : 'S_N) x adj
    (labels : 'rV[int]_N) :
  GCN.forward self (row_perm s x) (row_perm s (col_perm s adj))
  = row_perm s (GCN.forward self x adj)
  /\ get_predictions
       (GCN.forward self (row_perm s x) (row_perm s (col_perm s adj)))
       (col_perm s labels)
     = bind (get_predictions (GCN.forward self x adj) labels)
            (fun correct => Returns (col_perm s correct)).
Proof.
rewrite GCN_forward_perm; split=> //.
case: C self => [|C'] self //; rewrite !get_predictions_returns /=.
congr (Returns _); apply/rowP => i.
by rewrite !mxE row_seq_row_perm.
Qed.

(** X11: the accuracy of the model on an index set is the mean, over the
    index set, of the vector [get_predictions] returns for all the nodes;
    on an empty index set it is NaN. *)
Theorem gcn_accuracy_predictions self x adj (labels : 'rV[int]_N)
    (idx : seq 'I_N) :
  gcn_accuracy x adj labels idx self
  = bind (get_predictions (GCN.forward self x adj) labels)
         (fun correct =>
            Returns (true_divide (\sum_(i <- idx) correct 0 i) (size idx)))
  /\ (0 < C -> gcn_accuracy x adj labels [::] self = Returns NaN)%N.
Proof.
case: C self => [|C'] self //; rewrite !gcn_accuracy_returns.
rewrite get_predictions_returns /= big_nil /true_divide eqxx; split=> //.
by congr (Returns (true_divide _ _)); apply: eq_bigr => i _; rewrite mxE.
Qed.

End GraphMore.

(** ** Construction of the layers and of the model *)

Section InitMore.

Variable R : rcfType.
Variable rng : Type.
Variable uniform_ : forall m n : nat, R -> R -> rng -> 'M[R]_(m, n) * rng.

Import GraphConvolution.

Lemma init_returns F H (w0 : 'M[R]_(F, H)) (b0 : 'rV[R]_H) g :
  (0 < H)%N ->
  init uniform_ w0 b0 g
  = let stdv := 1 / Num.sqrt H%:R in
    let wg := uniform_ F H (- stdv) stdv g in
    let bg := uniform_ 1 H (- stdv) stdv wg.2 in
    Returns (Build wg.1 bg.1, bg.2).
Proof.
move=> H_gt0; rewrite /init /reset_parameters /size1 /float_div.
have /negPf -> : Num.sqrt H%:R != 0 :> R by rewrite gt_eqF // sqrtr_gt0 ltr0n.
by rewrite /=; case: (uniform_ F H _ _ _) => w g1 /=; case: (uniform_ 1 H _ _ _).
Qed.

Lemma init_raisedE F H (w0 : 'M[R]_(F, H)) (b0 : 'rV[R]_H) g :
  raised (init uniform_ w0 b0 g) = (H == 0)%N.
Proof.
case: H w0 b0 => [|H] w0 b0; first by rewrite init_no_output_features.
by rewrite init_returns.
Qed.

(** X12: the construction of a layer raises ZeroDivisionError exactly
    when it has no output feature, and what it returns does not depend on
    the values the tensors held when they were allocated. *)
Theorem init_raises_iff F H (w0 : 'M[R]_(F, H)) (b0 : 'rV[R]_H) g :
  [/\ raised (init uniform_ w0 b0 g) = (H == 0)%N,
      (H == 0)%N -> init uniform_ w0 b0 g = Raises ZeroDivisionError
    & forall w0' b0', init uniform_ w0' b0' g = init uniform_ w0 b0 g].
Proof.
split=> [|H0|w0' b0']; first exact: init_raisedE.
- by case: H H0 w0 b0 => // _ w0 b0; rewrite init_no_output_features.
- case: H w0 b0 w0' b0' => [|H] w0 b0 w0' b0'.
    by rewrite !init_no_output_features.
  by rewrite !init_returns.
Qed.

(** X13: the construction of the model raises exactly when the hidden
    dimension or the number of classes is zero. *)
Theorem GCN_init_raises_iff F H C (w1 : 'M[R]_(F, H)) (b1 : 'rV[R]_H)
    (w2 : 'M[R]_(H, C)) (b2 : 'rV[R]_C) g :
  raised (GCN.init uniform_ w1 b1 w2 b2 g) = (H == 0)%N || (C == 0)%N.
Proof.
rewrite /GCN.init.
case: H w1 b1 w2 => [|H] w1 b1 w2; first by rewrite init_no_output_features.
rewrite init_returns //=.
case: C w2 b2 => [|C] w2 b2; first by rewrite init_no_output_features.
by rewrite init_returns.
Qed.

Hypothesis uniform_range :
  forall m n lo hi g i j,
    lo <= hi -> lo <= (uniform_ m n lo hi g).1 i j <= hi.

Lemma stdv_bounds n : (0 < n)%N -> - (1 / Num.sqrt n%:R) <= 1 / Num.sqrt n%:R :> R.
Proof.
by move=> n_gt0; rewrite -subr_ge0 opprK addr_ge0 // ltW // stdv_gt0.
Qed.

(** X14: with a positive hidden dimension and a positive number of
    classes the construction of the model draws, in this order, the
    weight and the bias of the first layer between -+1/sqrt(hidden_dim),
    then the weight and the bias of the second layer between
    -+1/sqrt(num_classes), each draw with the generator the draw before
    left; every parameter lies between the bounds of its layer. *)
Theorem GCN_init_spec F H C (w1 : 'M[R]_(F, H)) (b1 : 'rV[R]_H)
    (w2 : 'M[R]_(H, C)) (b2 : 'rV[R]_C) g :
  (0 < H)%N -> (0 < C)%N ->
  let s1 := 1 / Num.sqrt H%:R in
  let s2 := 1 / Num.sqrt C%:R in
  exists model g1 g2 g3 g4,
    [/\ GCN.init uniform_ w1 b1 w2 b2 g = Returns (model, g4),
        [/\ uniform_ F H (- s1) s1 g = (weight (GCN.gc1 model), g1),
            uniform_ 1 H (- s1) s1 g1 = (bias (GCN.gc1 model), g2),
            uniform_ H C (- s2) s2 g2 = (weight (GCN.gc2 model), g3)
          & uniform_ 1 C (- s2) s2 g3 = (bias (GCN.gc2 model), g4)],
        (forall i j, - s1 <= weight (GCN.gc1 model) i j <= s1)
        /\ (forall j, - s1 <= bias (GCN.gc1 model) 0 j <= s1)
      & (forall i j, - s2 <= weight (GCN.gc2 model) i j <= s2)
        /\ (forall j, - s2 <= bias (GCN.gc2 model) 0 j <= s2)].
Proof.
move=> H_gt0 C_gt0 s1 s2.
have le1 : - s1 <= s1 by apply: stdv_bounds.
have le2 : - s2 <= s2 by apply: stdv_bounds.
rewrite /GCN.init init_returns //= init_returns //= -/s1 -/s2.
case e1: (uniform_ F H (- s1) s1 g) => [wa g1] /=.
case e2: (uniform_ 1 H (- s1) s1 g1) => [ba g2] /=.
case e3: (uniform_ H C (- s2) s2 g2) => [wb g3] /=.
case e4: (uniform_ 1 C (- s2) s2 g3) => [bb g4] /=.
exists (GCN.Build (Build wa ba) (Build wb bb)), g1, g2, g3, g4.
split=> //=; split=> [i j | j].
- by have := uniform_range g i j le1; rewrite e1.
- by have := @uniform_range 1 H _ _ g1 0 j le1; rewrite e2.
- by have := uniform_range g2 i j le2; rewrite e3.
- by have := @uniform_range 1 C _ _ g3 0 j le2; rewrite e4.
Qed.

End InitMore.

(** ** The perceptron *)

Section PerceptronMore.

Variable R : realFieldType.

Lemma relu_index_rows N m (idx : seq 'I_N) (x : 'M[R]_(N, m)) :
  relu (index_rows idx x) = index_rows idx (relu x).
Proof. by apply/matrixP => r j; rewrite !mxE. Qed.

Lemma linear_index_rows F H N (layer : Linear.t R F H) (idx : seq 'I_N)
    (x : 'M[R]_(N, F)) :
  Linear.forward layer (index_rows idx x)
  = index_rows idx (Linear.forward layer x).
Proof.
apply/matrixP => r j; rewrite /Linear.forward !mxE; congr (_ + _).
by apply: eq_bigr => l _; rewrite !mxE.
Qed.

Lemma broadcast_rows1 m (b : 'rV[R]_m) : broadcast_rows 1 b = b.
Proof. by apply/rowP => j; rewrite mxE. Qed.

Lemma linear_row F H N (layer : Linear.t R F H) (x : 'M[R]_(N, F)) i :
  row i (Linear.forward layer x) = Linear.forward layer (row i x).
Proof.
rewrite /Linear.forward raddfD /= row_mul.
by rewrite row_broadcast_rows broadcast_rows1.
Qed.

Variables d0 d1 d2 C N : nat.
Implicit Types (self : MLP.t R d0 d1 d2 C) (x : 'M[R]_(N, d0)).

Lemma mlp_forward_index_rows self (idx : seq 'I_N) x :
  MLP.forward self (index_rows idx x) = index_rows idx (MLP.forward self x).
Proof.
rewrite /MLP.forward.
by rewrite !(linear_index_rows, relu_index_rows).
Qed.

(** X15: the perceptron works row by row: on selected rows of the
    features it returns the selected rows of what it returns on all the
    features, a row of its output is its output on that row alone, and
    two feature matrices with the same row [i] give the same row [i]. *)
Theorem mlp_forward_rows self x :
  [/\ forall idx : seq 'I_N,
        MLP.forward self (index_rows idx x)
        = index_rows idx (MLP.forward self x),
      forall i, row i (MLP.forward self x) = MLP.forward self (row i x)
    & forall x' i, row i x = row i x' ->
        row i (MLP.forward self x) = row i (MLP.forward self x')].
Proof.
have rowE (y : 'M[R]_(N, d0)) i :
    row i (MLP.forward self y) = MLP.forward self (row i y).
  by rewrite /MLP.forward /relu linear_row -map_row linear_row -map_row linear_row.
split=> [idx | i | x' i eq_row]; first exact: mlp_forward_index_rows.
- exact: rowE.
- by rewrite !rowE eq_row.
Qed.

(** X16: [mlp_accuracy], which runs the perceptron on the rows of the
    index set, is the mean over the index set of the vector
    [get_predictions] returns for the perceptron run on all the nodes;
    on an empty index set it is NaN. *)
Theorem mlp_accuracy_predictions self x (labels : 'rV[int]_N)
    (idx : seq 'I_N) :
  mlp_accuracy x labels idx self
  = bind (get_predictions (MLP.forward self x) labels)
         (fun correct =>
            Returns (true_divide (\sum_(i <- idx) correct 0 i) (size idx)))
  /\ (0 < C -> mlp_accuracy x labels [::] self = Returns NaN)%N.
Proof.
rewrite /mlp_accuracy !mlp_forward_index_rows.
case: C self => [|C'] self //; rewrite !accuracy_index_rows.
rewrite get_predictions_returns /= big_nil /true_divide eqxx; split=> //.
by congr (Returns (true_divide _ _)); apply: eq_bigr => i _; rewrite mxE.
Qed.

End PerceptronMore.

(** ** The training loops *)

Section TrainingMore.

Variable R : realFieldType.
Variables F H C N : nat.
Variable features : 'M[R]_(N, F).
Variable adj : 'M[R]_N.
Variable labels : 'rV[int]_N.
Variable idx_train : seq 'I_N.
Variable cross_entropy : forall m : nat, 'M[R]_(m, C) -> 'rV[int]_m -> R.
Variables grads opt_state : Type.
Variable zero_grad : grads.
Variable backward : (GCN.t R F H C -> R) -> GCN.t R F H C -> grads -> grads.
Variable opt_step :
  opt_state -> GCN.t R F H C -> grads -> opt_state * GCN.t R F H C.

Local Notation run :=
  (train features adj labels idx_train cross_entropy zero_grad backward
         opt_step).
Local Notation epoch :=
  (train_epoch features adj labels idx_train cross_entropy zero_grad backward
               opt_step).

Lemma train_epoch_losses p o g L e :
  epoch (LoopState p o g L) e
  = let st := epoch (LoopState p o g [::]) e in
    LoopState (gcn st) (opt st) (grad st) (L ++ losses st).
Proof. by rewrite /train_epoch /=; case: (opt_step _ _ _) => o' p'; rewrite cats1. Qed.

Lemma foldl_epoch_losses p o g L s :
  foldl epoch (LoopState p o g L) s
  = let st := foldl epoch (LoopState p o g [::]) s in
    LoopState (gcn st) (opt st) (grad st) (L ++ losses st).
Proof.
elim: s p o g L => [|e s IHs] p o g L /=; first by rewrite cats0.
rewrite train_epoch_losses /=.
case: (epoch (LoopState p o g [::]) e) => p' o' g' L' /=.
by rewrite IHs [in RHS]IHs /= catA.
Qed.

Lemma foldl_epoch_iota st a b n :
  foldl epoch st (iota a n) = foldl epoch st (iota b n).
Proof. by elim: n st a b => [|n IHn] st a b //=; rewrite (IHn _ a.+1 b.+1). Qed.

(** X17: training [E1 + E2] epochs is training [E1] epochs and then [E2]
    more from the parameters, the optimizer state and the buffers
    reached: the parameters are the same, and the losses are those of the
    first run followed by those of the second. *)
Theorem train_add E1 E2 model o g :
  let train_for :=
    train features adj labels idx_train cross_entropy zero_grad backward
          opt_step in
  let st1 := train_for E1 model o g in
  let st2 := train_for E2 (gcn st1) (opt st1) (grad st1) in
  train_for (E1 + E2) model o g
  = LoopState (gcn st2) (opt st2) (grad st2) (losses st1 ++ losses st2).
Proof.
rewrite /train iotaD foldl_cat add0n (foldl_epoch_iota _ E1 0).
by case: (foldl _ _ (iota 0 E1)) => p1 o1 g1 L1 /=; rewrite foldl_epoch_losses.
Qed.

End TrainingMore.

Section TrainingMLPMore.

Variable R : realFieldType.
Variables d0 d1 d2 C N : nat.
Variable labels : 'rV[int]_N.
Variable idx_train : seq 'I_N.
Variable cross_entropy : forall m : nat, 'M[R]_(m, C) -> 'rV[int]_m -> R.
Variables grads opt_state : Type.
Variable zero_grad : grads.
Variable backward :
  (MLP.t R d0 d1 d2 C -> R) -> MLP.t R d0 d1 d2 C -> grads -> grads.
Variable opt_step :
  opt_state -> MLP.t R d0 d1 d2 C -> grads -> opt_state * MLP.t R d0 d1 d2 C.

Local Notation run features :=
  (mlp_train features labels idx_train cross_entropy zero_grad backward
             opt_step).
Local Notation epoch features :=
  (mlp_train_epoch features labels idx_train cross_entropy zero_grad backward
                   opt_step).

Lemma mlp_trainS features E model o g :
  run features E.+1 model o g = epoch features (run features E model o g) E.
Proof. by rewrite /mlp_train -addn1 iotaD /= foldl_cat. Qed.

Lemma size_mlp_losses features E model o g :
  size (mlp_losses (run features E model o g)) = E.
Proof.
elim: E => [|E IHE] //; rewrite mlp_trainS /mlp_train_epoch.
by case: (opt_step _ _ _) => o' p' /=; rewrite size_rcons IHE.
Qed.

(** X18: the training loop of the perceptron records one loss per epoch
    and reads the features of the nodes of [idx_train] only: two feature
    matrices with the same rows at [idx_train] lead to the same
    parameters, optimizer state and losses. *)
Theorem mlp_train_reads_train_rows (features features' : 'M[R]_(N, d0)) :
  index_rows idx_train features = index_rows idx_train features' ->
  forall E model o g,
    run features E model o g = run features' E model o g
    /\ size (mlp_losses (run features E model o g)) = E.
Proof.
move=> same_rows E model o g; split; last exact: size_mlp_losses.
by rewrite /mlp_train /mlp_train_epoch /mlp_train_loss same_rows.
Qed.

End TrainingMLPMore.

(** ** The coordinates of [plot_graph] *)

Section PlotGraphMore.

Variable T : Type.
Variable N : nat.
Variable layt : 'I_N -> T * T * T.

Local Notation segments c es :=
  (flatten [seq [:: Some (c (layt e.1)); Some (c (layt e.2)); None]
           | e <- es]).

Lemma foldl_edge_step Xe Ye Ze (es : seq ('I_N * 'I_N)) :
  foldl (edge_step layt) (Xe, Ye, Ze) es
  = (Xe ++ segments (@coord0 T) es, Ye ++ segments (@coord1 T) es,
     Ze ++ segments (@coord2 T) es).
Proof.
elim: es Xe Ye Ze => [|e es IHes] Xe Ye Ze /=; first by rewrite !cats0.
by rewrite IHes -!catA.
Qed.

Lemma size_segments (c : T * T * T -> T) (es : seq ('I_N * 'I_N)) :
  size (segments c es) = (3 * size es)%N.
Proof. by elim: es => [|e es IHes] //=; rewrite IHes mulnS. Qed.

Lemma nth_segments (c : T * T * T -> T) (es : seq ('I_N * 'I_N)) e0 k :
  (k < size es)%N ->
  [/\ nth None (segments c es) (3 * k) = Some (c (layt (nth e0 es k).1)),
      nth None (segments c es) (3 * k).+1 = Some (c (layt (nth e0 es k).2))
    & nth None (segments c es) (3 * k).+2 = None].
Proof.
elim: es k => [|e es IHes] k //; case: k => [|k] ltk; first by [].
by rewrite mulnS add3n; apply: IHes.
Qed.

(** X19: for the edges [zip edgeA edgeB], each of the three coordinate
    lists [plot_graph] draws the edges from has three entries per edge:
    the coordinate of the first end, the coordinate of the second end and
    [None], in the order of the edges. *)
Theorem edge_coords_spec (edgeA edgeB : seq 'I_N) :
  let es := zip edgeA edgeB in
  let Xe := (edge_coords layt edgeA edgeB).1.1 in
  let Ye := (edge_coords layt edgeA edgeB).1.2 in
  let Ze := (edge_coords layt edgeA edgeB).2 in
  [/\ size Xe = (3 * minn (size edgeA) (size edgeB))%N,
      size Ye = size Xe /\ size Ze = size Xe
    & forall e0 k, (k < size es)%N ->
        let a := layt (nth e0 es k).1 in
        let b := layt (nth e0 es k).2 in
        [/\ nth None Xe (3 * k) = Some (coord0 a)
            /\ nth None Xe (3 * k).+1 = Some (coord0 b)
            /\ nth None Xe (3 * k).+2 = None,
            nth None Ye (3 * k) = Some (coord1 a)
            /\ nth None Ye (3 * k).+1 = Some (coord1 b)
            /\ nth None Ye (3 * k).+2 = None
          & nth None Ze (3 * k) = Some (coord2 a)
            /\ nth None Ze (3 * k).+1 = Some (coord2 b)
            /\ nth None Ze (3 * k).+2 = None]].
Proof.
rewrite /edge_coords foldl_edge_step /= !size_segments.
split=> [||e0 k ltk] //; first by rewrite size_zip.
have [x0 x1 x2] := nth_segments (@coord0 T) e0 ltk.
have [y0 y1 y2] := nth_segments (@coord1 T) e0 ltk.
have [z0 z1 z2] := nth_segments (@coord2 T) e0 ltk.
by split.
Qed.

(** The coordinate lists of the nodes have one entry per node, the entry
    [k] being the coordinate of the node [k] in the layout. *)
Lemma node_coords_spec :
  let Xn := (node_coords layt).1.1 in
  let Yn := (node_coords layt).1.2 in
  let Zn := (node_coords layt).2 in
  [/\ size Xn = N /\ size Yn = N /\ size Zn = N
    & forall (d : T) (k : 'I_N),
        [/\ nth d Xn k = coord0 (layt k), nth d Yn k = coord1 (layt k)
          & nth d Zn k = coord2 (layt k)]].
Proof.
rewrite /node_coords; split=> [|d k].
  by rewrite /= !size_map -enumT size_enum_ord.
by split; rewrite /= (nth_map k) ?size_enum_ord // nth_ord_enum.
Qed.

End PlotGraphMore.

(** ** Instances of the further properties *)


Lemma adj3_neighbours0 (k : 'I_3) :
  adj3 ord0 k != 0 -> row k logits3 = row k logits3_row2.
Proof.
case: k => [[|[|[|k]]] ltk] //; rewrite !mxE //= => _.
- by apply/rowP => j; rewrite !mxE.
- by apply/rowP => j; rewrite !mxE.
Qed.

Lemma adj3_neighbours01 (m k : 'I_3) :
  adj3 ord0 m != 0 -> adj3 m k != 0 -> row k logits3 = row k logits3_row2.
Proof.
case: m => [[|[|[|m]]] ltm] //; case: k => [[|[|[|k]]] ltk] //;
  rewrite !mxE //= => _ _; by apply/rowP => j; rewrite !mxE.
Qed.

Lemma forward_neighbours_witness :
  (forall k, adj3 ord0 k != 0 -> row k logits3 = row k logits3_row2)
  /\ row ord0 (GraphConvolution.forward (GCN.gc1 gcn2) logits3 adj3)
     = row ord0 (GraphConvolution.forward (GCN.gc1 gcn2) logits3_row2 adj3).
Proof.
split; first exact: adj3_neighbours0.
exact: (forward_neighbours (GCN.gc1 gcn2) adj3_neighbours0).
Defined.

Lemma GCN_forward_two_hops_witness :
  (forall m k, adj3 ord0 m != 0 -> adj3 m k != 0 ->
     row k logits3 = row k logits3_row2)
  /\ row ord0 (GCN.forward gcn2 logits3 adj3)
     = row ord0 (GCN.forward gcn2 logits3_row2 adj3).
Proof.
split; first exact: adj3_neighbours01.
exact: (GCN_forward_two_hops gcn2 adj3_neighbours01).
Defined.

Lemma mean3_rows i : \sum_k mean3 i k = 1.
Proof. by rewrite !big_ord_recl big_ord0 !mxE; apply/eqP. Qed.

Lemma ones3_rows i : row i ones3 = const_mx 1.
Proof. by apply/rowP => j; rewrite !mxE. Qed.

Lemma GCN_forward_constant_witness :
  [/\ forall i, \sum_k mean3 i k = 1,
      forall i, row i ones3 = const_mx 1
    & forall i, row i (GCN.forward gcn2 ones3 mean3)
                = mlp_row gcn2 (const_mx 1)].
Proof.
split; [exact: mean3_rows | exact: ones3_rows |].
exact: (GCN_forward_constant gcn2 mean3_rows ones3_rows).
Defined.

Lemma GCN_init_spec_witness :
  [/\ (0 < 4)%N, (0 < 2)%N
    & let s1 : algR := 1 / Num.sqrt 4%:R in
      let s2 : algR := 1 / Num.sqrt 2%:R in
      exists model g1 g2 g3 g4,
        [/\ GCN.init counter_uniform (0 : 'M[algR]_(2, 4)) (0 : 'rV[algR]_4)
                     (0 : 'M[algR]_(4, 2)) (0 : 'rV[algR]_2) 0%N
            = Returns (model, g4),
            [/\ counter_uniform 2 4 (- s1) s1 0%N
                = (GraphConvolution.weight (GCN.gc1 model), g1),
                counter_uniform 1 4 (- s1) s1 g1
                = (GraphConvolution.bias (GCN.gc1 model), g2),
                counter_uniform 4 2 (- s2) s2 g2
                = (GraphConvolution.weight (GCN.gc2 model), g3)
              & counter_uniform 1 2 (- s2) s2 g3
                = (GraphConvolution.bias (GCN.gc2 model), g4)],
            (forall i j,
               - s1 <= GraphConvolution.weight (GCN.gc1 model) i j <= s1)
            /\ (forall j,
                  - s1 <= GraphConvolution.bias (GCN.gc1 model) 0 j <= s1)
          & (forall i j,
               - s2 <= GraphConvolution.weight (GCN.gc2 model) i j <= s2)
            /\ (forall j,
                  - s2 <= GraphConvolution.bias (GCN.gc2 model) 0 j <= s2)]].
Proof.
split=> //.
exact: (@GCN_init_spec algR nat counter_uniform counter_uniform_range
          2 4 2 0 0 0 0 0%N isT isT).
Defined.

Lemma idx0_rows : index_rows idx0 logits3 = index_rows idx0 logits3_row0.
Proof.
apply/matrixP => r j; rewrite !mxE (tnth_nth ord0) /=.
by case: r => [[|r] ltr].
Qed.

Lemma mlp_train_reads_train_rows_witness :
  index_rows idx0 logits3 = index_rows idx0 logits3_row0
  /\ (mlp_train logits3 labels3 idx0 sum_loss tt no_backward count_step
                3 mlp2 0%N tt
      = mlp_train logits3_row0 labels3 idx0 sum_loss tt no_backward
                  count_step 3 mlp2 0%N tt
      /\ size (mlp_losses
                 (mlp_train logits3 labels3 idx0 sum_loss tt no_backward
                            count_step 3 mlp2 0%N tt)) = 3%N).
Proof.
split; first exact: idx0_rows.
exact: (mlp_train_reads_train_rows labels3 sum_loss tt no_backward count_step
          idx0_rows 3 mlp2 0%N tt).
Defined.
